(** * Conversion pipeline of [printing/converter.py]

    A shallow embedding of the converter registry, of the pipeline resolver
    [get_converter_chain] and of the orchestrator [auto_convert], followed by
    the properties of the specification that concern them. *)

From stdpp Require Import base gmap sets list strings.

#[local] Set Warnings "-clear-no-such-hyp".

(** ** Exceptions and results *)

(** The exceptions the module can let escape.  [NoConverterAvailableError]
    is built in the source from a message formatted with [input_type] and
    [output_types]; the embedding keeps the two format arguments.
    [CalledProcessError] and [OSError] are the two exceptions of
    [subprocess.check_call]: a non-zero exit status, and a command that
    could not be started. *)
Inductive exn : Type :=
| NoConverterAvailableError (input_type : string) (output_types : gset string)
| KeyError (key : string)
| CalledProcessError (returncode : Z) (cmd : list string)
| OSError (cmd : list string)
| MagicException (path : string).

(** A call returns, raises, is cut by the fuel that bounds the [while]
    loops of the embedding, or waits for ever on an external command. *)
Inductive result (A : Type) : Type :=
| Return (a : A)
| Raise (e : exn)
| OutOfFuel
| Hangs.
Arguments Return {A} a.
Arguments Raise {A} e.
Arguments OutOfFuel {A}.
Arguments Hangs {A}.

(** ** Converter classes *)

(** The class attributes every [Converter] subclass declares. *)
Class ConverterAttrs (C : Type) : Type := {
  supported_types : C → list string;
  supported_extensions : C → list string;
  output_type : C → string;
}.

(** ** The resolver, over any list of converter classes *)

Section resolver.
Context {C : Type} `{ConverterAttrs C}.

(** The module-level list [CONVERTERS]. *)
Variable CONVERTERS : list C.

(** [converters_for_type[mime].append(conv)] on a [defaultdict(list)]. *)
Definition index_append (conv : C) (idx : gmap string (list C))
    (mime : string) : gmap string (list C) :=
  <[mime := idx !!! mime ++ [conv]]> idx.

(** The two nested [for] loops that fill [converters_for_type]. *)
Definition converters_for_type : gmap string (list C) :=
  foldl (λ idx conv, foldl (index_append conv) idx (supported_types conv))
        ∅ CONVERTERS.

(** The body of [for conv in converters_for_type[v]].  The deque is kept
    right end first: [queue.append(u)] is a cons.  The boolean tells
    whether the loop left through [return]. *)
Fixpoint visit (output_types : gset string) (v : string) (convs : list C)
    (reverse : gmap string (string * C)) (queue : list string)
  : gmap string (string * C) * list string * bool :=
  match convs with
  | [] => (reverse, queue, false)
  | conv :: convs' =>
      let u := output_type conv in
      let '(reverse', queue') :=
        match reverse !! u with
        | None => (<[u := (v, conv)]> reverse, u :: queue)
        | Some _ => (reverse, queue)
        end in
      if decide (u ∈ output_types) then (reverse', queue', true)
      else visit output_types v convs' reverse' queue'
  end.

(** [while len(queue) > 0: v = queue.pop(); ...]: [pop] takes the right
    end of the deque, the end [append] adds to. *)
Fixpoint bfs_loop (fuel : nat) (output_types : gset string)
    (reverse : gmap string (string * C)) (queue : list string)
  : option (gmap string (string * C)) :=
  match fuel with
  | 0 => None
  | S fuel' =>
      match queue with
      | [] => Some reverse
      | v :: rest =>
          let '(reverse', queue', hit) :=
            visit output_types v (converters_for_type !!! v) reverse rest in
          if hit then Some reverse'
          else bfs_loop fuel' output_types reverse' queue'
      end
  end.

(** The inner function [bfs]; it returns the dictionary [reverse] it
    fills. *)
Definition bfs (input_type : string) (output_types : gset string)
  : option (gmap string (string * C)) :=
  bfs_loop (S (S (length CONVERTERS))) output_types ∅ [input_type].

(** [while v != input_type: v, conv = reverse[v]; pipeline.appendleft(conv)]. *)
Fixpoint walk_back (fuel : nat) (reverse : gmap string (string * C))
    (input_type v : string) (pipeline : list C) : result (list C) :=
  match fuel with
  | 0 => OutOfFuel
  | S fuel' =>
      if decide (v = input_type) then Return pipeline
      else match reverse !! v with
           | None => Raise (KeyError v)
           | Some (v', conv) =>
               walk_back fuel' reverse input_type v' (conv :: pipeline)
           end
  end.

(** [get_converter_chain].  [next(iter(intersect))] is the first element
    the set yields; [intersect_at_most_one] below shows the set never has
    two. *)
Definition get_converter_chain (input_type : string)
    (output_types : gset string) : result (list C) :=
  match bfs input_type output_types with
  | None => OutOfFuel
  | Some reverse =>
      let intersect := output_types ∩ dom reverse in
      match elements intersect with
      | [] => Raise (NoConverterAvailableError input_type output_types)
      | v :: _ => walk_back (S (size reverse)) reverse input_type v []
      end
  end.

End resolver.

(** ** The converter classes of the module *)

Inductive Converter : Type := ImageConverter | DocConverter | PDFConverter.

#[global] Instance Converter_eq_dec : EqDecision Converter.
Proof. solve_decision. Defined.

#[global] Instance Converter_attrs : ConverterAttrs Converter := {|
  supported_types c :=
    match c with
    | ImageConverter => ["image/png"; "image/jpeg"]
    | DocConverter =>
        ["application/msword";
         "application/vnd.openxmlformats-officedocument.wordprocessing";
         "application/rtf"; "application/vnd.oasis.opendocument.text"]
    | PDFConverter => ["application/pdf"]
    end;
  supported_extensions c :=
    match c with
    | ImageConverter => ["png"; "jpg"; "jpeg"]
    | DocConverter => ["doc"; "docx"; "rtf"; "odt"]
    | PDFConverter => ["pdf"]
    end;
  output_type c :=
    match c with
    | ImageConverter => "application/pdf"
    | DocConverter => "application/pdf"
    | PDFConverter => "gutenberg/pdf"
    end;
|}.

Definition CONVERTERS_ALL : list Converter :=
  [ImageConverter; DocConverter; PDFConverter].

(** ** The host environment and the effects of a conversion *)

(** What becomes of a command handed to [subprocess.check_call]: it exits
    with a return code, it cannot be started, or it never exits
    ([check_call] sets no timeout). *)
Inductive process_outcome : Type :=
| Exited (returncode : Z)
| NotStarted
| NeverExits.

(** What the module reads from the host: the directory above the package
    ([BASE_DIR]), the search path ([shutil.which]), content sniffing
    ([magic.Magic(mime=True).from_file], [None] when it raises), and the
    outcome of a command given the commands handed over before it. *)
Record World : Type := {
  BASE_DIR : string;
  which : string → bool;
  from_file : string → option string;
  run_process : list (list string) → list string → process_outcome;
}.

(** [posixpath.join] on two components. *)
Fixpoint ends_with_sep (s : string) : bool :=
  match s with
  | EmptyString => false
  | String c EmptyString => bool_decide (String c EmptyString = "/")
  | String _ s' => ends_with_sep s'
  end.

Definition os_path_join (a b : string) : string :=
  if String.prefix "/" b then b
  else if bool_decide (a = "") || ends_with_sep a then a +:+ b
  else a +:+ "/" +:+ b.

(** A computation runs against the trace of the commands handed to
    [subprocess.check_call] so far, in the order they were handed over. *)
Definition M (A : Type) : Type :=
  list (list string) → result A * list (list string).

#[global] Instance M_ret : MRet M := λ A a tr, (Return a, tr).

#[global] Instance M_bind : MBind M := λ A B k m tr,
  match m tr with
  | (Return a, tr') => k a tr'
  | (Raise e, tr') => (Raise e, tr')
  | (OutOfFuel, tr') => (OutOfFuel, tr')
  | (Hangs, tr') => (Hangs, tr')
  end.

(** A pure call that may raise. *)
Definition lift {A : Type} (r : result A) : M A := λ tr, (r, tr).

(** [subprocess.check_call]: the call waits for the command to exit and
    returns on status zero; a non-zero status raises [CalledProcessError]
    with the status and the command, and a command that cannot be started
    raises [OSError]. *)
Definition check_call (w : World) (cmd : list string) : M unit := λ tr,
  match run_process w tr cmd with
  | Exited returncode =>
      if decide (returncode = 0%Z) then (Return (), tr ++ [cmd])
      else (Raise (CalledProcessError returncode cmd), tr ++ [cmd])
  | NotStarted => (Raise (OSError cmd), tr ++ [cmd])
  | NeverExits => (Hangs, tr ++ [cmd])
  end.

Definition SANDBOX_PATH (w : World) : string :=
  os_path_join (BASE_DIR w) "sandbox.sh".

Definition run_in_sandbox (w : World) (work_dir : string)
    (command : list string) : M unit :=
  check_call w ([SANDBOX_PATH w; work_dir] ++ command).

Definition binary_exists (w : World) (name : string) : bool := which w name.

Definition CONVERT_OPTIONS : list string :=
  ["-resize"; "2365x3335"; "-gravity"; "center"; "-background"; "white";
   "-extent"; "2490x3510"; "-units"; "PixelsPerInch"; "-density"; "300x300"].

(** The file a converter class writes, and the command it hands to the
    sandbox. *)
Definition out_file (c : Converter) (work_dir : string) : string :=
  match c with
  | ImageConverter => os_path_join work_dir "out.pdf"
  | DocConverter => os_path_join work_dir "out.pdf"
  | PDFConverter => os_path_join work_dir "final.pdf"
  end.

Definition command (c : Converter) (work_dir input_file : string)
  : list string :=
  let out := out_file c work_dir in
  match c with
  | ImageConverter => ["convert"; input_file] ++ CONVERT_OPTIONS ++ [out]
  | DocConverter => ["unoconv"; "-o"; out; input_file]
  | PDFConverter =>
      ["gs"; "-sDEVICE=pdfwrite"; "-dNOPAUSE"; "-dBATCH"; "-dSAFER";
       "-dCompatibilityLevel=1.4"; "-sOutputFile=" +:+ out; input_file]
  end.

(** [conv_class(work_dir).convert(input_file)]. *)
Definition convert (w : World) (c : Converter) (work_dir input_file : string)
  : M string :=
  run_in_sandbox w work_dir (command c work_dir input_file) ;;
  mret (out_file c work_dir).

Definition is_available (w : World) (c : Converter) : bool :=
  match c with
  | ImageConverter => binary_exists w "convert"
  | DocConverter => binary_exists w "unoconv"
  | PDFConverter => binary_exists w "gs"
  end.

(** [CONVERTERS = [conv for conv in CONVERTERS_ALL if conv.is_available()]]
    and the two lists derived from it. *)
Definition CONVERTERS (w : World) : list Converter :=
  filter (λ conv, is_available w conv) CONVERTERS_ALL.

Definition SUPPORTED_FILE_FORMATS (w : World) : list string :=
  concat (supported_types <$> CONVERTERS w).

Definition SUPPORTED_EXTENSIONS (w : World) : list string :=
  concat (supported_extensions <$> CONVERTERS w).

(** ** The orchestrator *)

(** The argument [out_types: Union[str, List[str]]]. *)
Inductive out_types_arg : Type :=
| OneType (s : string)
| TypeList (l : list string).

(** [if isinstance(out_types, str): out_types = [out_types]] followed by
    [out_types = set(out_types)]. *)
Definition out_types_set (out_types : out_types_arg) : gset string :=
  let out_types :=
    match out_types with
    | OneType s => [s]
    | TypeList l => l
    end in
  list_to_set out_types.

Definition magic_from_file (w : World) (input_file : string) : M string :=
  lift (match from_file w input_file with
        | Some t => Return t
        | None => Raise (MagicException input_file)
        end).

(** [for conv_class in pipeline: file = conv_class(work_dir).convert(file)]. *)
Fixpoint run_pipeline (w : World) (work_dir : string)
    (pipeline : list Converter) (file : string) : M string :=
  match pipeline with
  | [] => mret file
  | conv_class :: rest =>
      file' ← convert w conv_class work_dir file;
      run_pipeline w work_dir rest file'
  end.

Definition auto_convert (w : World) (input_file : string)
    (out_types : out_types_arg) (work_dir : string) : M string :=
  let out_types := out_types_set out_types in
  input_type ← magic_from_file w input_file;
  if decide (input_type ∈ out_types) then mret input_type
  else
    pipeline ← lift (get_converter_chain (CONVERTERS w) input_type out_types);
    run_pipeline w work_dir pipeline input_file.

(** ** Chains of converters *)

Section chains.
Context {C : Type} `{ConverterAttrs C}.

(** The content type a sequence of stages produces from type [t]; [None]
    when a stage is handed a type it does not support. *)
Fixpoint chain_output (t : string) (p : list C) : option string :=
  match p with
  | [] => Some t
  | c :: p' =>
      if decide (t ∈ supported_types c) then chain_output (output_type c) p'
      else None
  end.

(** [p] is a chain of converters of [registry] that transforms type [t]
    into a member of [accepted]; the empty chain does so when [t] is
    already accepted. *)
Definition transforms (registry : list C) (t : string)
    (accepted : gset string) (p : list C) : Prop :=
  Forall (λ c, c ∈ registry) p ∧
  match chain_output t p with
  | Some u => u ∈ accepted
  | None => False
  end.

(** The three conditions of a valid pipeline, stage by stage. *)
Definition valid_chain (input_type : string) (output_types : gset string)
    (p : list C) : Prop :=
  (∀ c1, head p = Some c1 → input_type ∈ supported_types c1) ∧
  (∀ i ci cj, p !! i = Some ci → p !! S i = Some cj →
              output_type ci ∈ supported_types cj) ∧
  (∀ cn, last p = Some cn → output_type cn ∈ output_types).

(** *** What the traversal maintains *)

Variable CONVERTERS : list C.
Variable input_type : string.

(** The stages met when following [reverse] from a type back to
    [input_type], in execution order. *)
Inductive walk (reverse : gmap string (string * C))
  : string → list C → Prop :=
| walk_start : walk reverse input_type []
| walk_step u v conv p :
    u ≠ input_type →
    reverse !! u = Some (v, conv) →
    walk reverse v p →
    walk reverse u (p ++ [conv]).

(** A type whose way back to [input_type] is recorded in [reverse]. *)
Definition known (reverse : gmap string (string * C)) (x : string) : Prop :=
  ∃ p, walk reverse x p ∧ length p ≤ size reverse ∧
       chain_output input_type p = Some x ∧
       Forall (λ c, c ∈ CONVERTERS) p.

Definition entries_ok (reverse : gmap string (string * C)) : Prop :=
  ∀ u v conv, reverse !! u = Some (v, conv) →
    conv ∈ CONVERTERS ∧ v ∈ supported_types conv ∧ output_type conv = u ∧
    known reverse v ∧ known reverse u.

(** Every converter that supports [x] has its output type among the keys
    of [reverse]. *)
Definition expanded (reverse : gmap string (string * C)) (x : string)
  : Prop :=
  ∀ c, c ∈ CONVERTERS → x ∈ supported_types c →
       output_type c ∈ dom reverse.

(** Every type reached so far is either waiting in the queue or
    expanded. *)
Definition frontier_ok (reverse : gmap string (string * C))
    (queue : list string) : Prop :=
  ∀ x, x = input_type ∨ x ∈ dom reverse → x ∈ queue ∨ expanded reverse x.

End chains.

#[global] Instance transforms_dec {C : Type} `{ConverterAttrs C}
  `{EqDecision C} registry t accepted (p : list C) :
  Decision (transforms registry t accepted p).
Proof. unfold transforms. destruct (chain_output t p); apply _. Defined.

Definition demo_world : World := {|
  BASE_DIR := "/srv/gutenberg";
  which := λ _, true;
  from_file := λ f,
    if bool_decide (f = "/srv/jobs/scan.pdf") then Some "application/pdf"
    else Some "image/jpeg";
  run_process := λ _ _, Exited 0;
|}.

(** A host on which [convert] is missing from the search path. *)
Definition world_without_convert : World := {|
  BASE_DIR := "/srv/gutenberg";
  which := λ name, negb (bool_decide (name = "convert"));
  from_file := λ _, Some "image/jpeg";
  run_process := λ _ _, Exited 0;
|}.

(** A host on which every tool is on the search path and [gs] exits with
    status 1. *)
Definition world_gs_fails : World := {|
  BASE_DIR := "/srv/gutenberg";
  which := λ _, true;
  from_file := λ _, Some "image/jpeg";
  run_process := λ _ cmd,
    if bool_decide (cmd !! 2 = Some "gs") then Exited 1 else Exited 0;
|}.

(** A registry that is not the module's, used to show what the traversal
    order does when two routes of different lengths reach an accepted type:
    [a → b → t] and [a → c → d → t]. *)
Inductive SampleConverter : Type := ConvAB | ConvAC | ConvCD | ConvDT | ConvBT.

#[global] Instance SampleConverter_attrs : ConverterAttrs SampleConverter := {|
  supported_types c :=
    match c with
    | ConvAB | ConvAC => ["a"]
    | ConvCD => ["c"]
    | ConvDT => ["d"]
    | ConvBT => ["b"]
    end;
  supported_extensions _ := [];
  output_type c :=
    match c with
    | ConvAB => "b"
    | ConvAC => "c"
    | ConvCD => "d"
    | ConvDT | ConvBT => "t"
    end;
|}.

Definition SAMPLE_CONVERTERS : list SampleConverter :=
  [ConvAB; ConvAC; ConvCD; ConvDT; ConvBT].

(** The commands of the stages of [pipeline] run on [file], in order: the
    first stage is run on [file], each later one on the file the stage
    before it returns. *)
Fixpoint stage_commands (w : World) (work_dir : string)
    (pipeline : list Converter) (file : string) : list (list string) :=
  match pipeline with
  | [] => []
  | conv_class :: rest =>
      ([SANDBOX_PATH w; work_dir] ++ command conv_class work_dir file)
      :: stage_commands w work_dir rest (out_file conv_class work_dir)
  end.

(** A registry that is not the module's, with two converters that undo each
    other: [x → y] and [y → x]. *)
Inductive LoopConverter : Type := ConvXY | ConvYX.

#[global] Instance LoopConverter_attrs : ConverterAttrs LoopConverter := {|
  supported_types c := match c with ConvXY => ["x"] | ConvYX => ["y"] end;
  supported_extensions _ := [];
  output_type c := match c with ConvXY => "y" | ConvYX => "x" end;
|}.

Definition LOOP_CONVERTERS : list LoopConverter := [ConvXY; ConvYX].

(** * Properties *)

Section resolver_facts.
Context {C : Type} `{ConverterAttrs C}.
Variable CONVERTERS : list C.

Lemma chain_output_app (t : string) (p q : list C) :
  chain_output t (p ++ q) = chain_output t p ≫= λ u, chain_output u q.
Proof.
  revert t. induction p as [|c p IH]; intros t; simpl; [done|].
  case_decide; [apply IH | done].
Qed.

Lemma chain_output_snoc (t v : string) (p : list C) (conv : C) :
  chain_output t p = Some v → v ∈ supported_types conv →
  chain_output t (p ++ [conv]) = Some (output_type conv).
Proof.
  intros Hp Hv. rewrite chain_output_app, Hp. simpl.
  by rewrite decide_True.
Qed.

(** The index maps a type to the registered converters that support it. *)
Lemma index_append_lookup (conv : C) (idx : gmap string (list C))
    (mime v : string) :
  index_append conv idx mime !!! v =
  idx !!! v ++ (if decide (mime = v) then [conv] else []).
Proof.
  unfold index_append. case_decide as Hm.
  - subst. by rewrite lookup_total_insert_eq.
  - rewrite lookup_total_insert_ne by done. by rewrite app_nil_r.
Qed.

Lemma index_inner_lookup (conv : C) (mimes : list string)
    (idx : gmap string (list C)) (v : string) :
  foldl (index_append conv) idx mimes !!! v =
  idx !!! v ++ (mimes ≫= λ mime, if decide (mime = v) then [conv] else []).
Proof.
  revert idx. induction mimes as [|m mimes IH]; intros idx; simpl.
  - by rewrite app_nil_r.
  - rewrite IH, index_append_lookup. by rewrite <- app_assoc.
Qed.

Lemma index_outer_lookup (convs : list C) (idx : gmap string (list C))
    (v : string) :
  foldl (λ idx conv, foldl (index_append conv) idx (supported_types conv))
        idx convs !!! v =
  idx !!! v ++
  (convs ≫= λ conv, supported_types conv ≫= λ mime,
              if decide (mime = v) then [conv] else []).
Proof.
  revert idx. induction convs as [|c convs IH]; intros idx; simpl.
  - by rewrite app_nil_r.
  - rewrite IH, index_inner_lookup. by rewrite <- app_assoc.
Qed.

Lemma converters_for_type_lookup (v : string) :
  converters_for_type CONVERTERS !!! v =
  CONVERTERS ≫= λ conv, supported_types conv ≫= λ mime,
                if decide (mime = v) then [conv] else [].
Proof.
  unfold converters_for_type. rewrite index_outer_lookup.
  by rewrite lookup_total_empty.
Qed.

Lemma elem_of_converters_for_type (v : string) (conv : C) :
  conv ∈ converters_for_type CONVERTERS !!! v ↔
  conv ∈ CONVERTERS ∧ v ∈ supported_types conv.
Proof.
  rewrite converters_for_type_lookup, list_elem_of_bind. split.
  - intros (c & Hc & Hin). apply list_elem_of_bind in Hc.
    destruct Hc as (m & Hm & Hmin). case_decide; [|set_solver].
    apply list_elem_of_singleton in Hm. by subst.
  - intros [Hin Hv]. exists conv. split; [|done].
    apply list_elem_of_bind. exists v. split; [|done].
    rewrite decide_True by done. by apply list_elem_of_singleton.
Qed.

End resolver_facts.

Lemma size_list_to_set_le (l : list string) :
  size (list_to_set l : gset string) ≤ length l.
Proof.
  induction l as [|x l IH].
  - rewrite list_to_set_nil, size_empty. simpl. lia.
  - rewrite list_to_set_cons, size_union_alt, size_singleton. simpl.
    assert (size (list_to_set l ∖ {[x]} : gset string)
            ≤ size (list_to_set l : gset string)).
    { apply subseteq_size. set_solver. }
    lia.
Qed.

Section traversal_facts.
Context {C : Type} `{ConverterAttrs C}.
Variable CONVERTERS : list C.
Variable input_type : string.
Variable output_types : gset string.

Implicit Types reverse r : gmap string (string * C).

Lemma walk_insert reverse k e x p :
  reverse !! k = None →
  walk input_type reverse x p →
  walk input_type (<[k := e]> reverse) x p.
Proof.
  intros Hk Hw. induction Hw as [|u v conv p Hne Hl _ IH]; [constructor|].
  apply walk_step with v; [done| |done].
  rewrite lookup_insert_ne; [done|]. intros ->. congruence.
Qed.

Lemma known_insert reverse k e x :
  reverse !! k = None →
  known CONVERTERS input_type reverse x →
  known CONVERTERS input_type (<[k := e]> reverse) x.
Proof.
  intros Hk (p & Hw & Hlen & Hout & Hall). exists p.
  split_and!; [by apply walk_insert| |done|done].
  rewrite map_size_insert_None by done. lia.
Qed.

Lemma known_input reverse : known CONVERTERS input_type reverse input_type.
Proof. exists []. split_and!; [constructor|simpl; lia|done|constructor]. Qed.

Lemma known_fresh reverse u v conv :
  reverse !! u = None → conv ∈ CONVERTERS → v ∈ supported_types conv →
  output_type conv = u →
  known CONVERTERS input_type reverse v →
  known CONVERTERS input_type (<[u := (v, conv)]> reverse) u.
Proof.
  intros Hu Hin Hv Hout (p & Hw & Hlen & Hp & Hall).
  destruct (decide (u = input_type)) as [->|Hne]; [apply known_input|].
  exists (p ++ [conv]). split_and!.
  - apply walk_step with v; [done|by rewrite lookup_insert_eq|].
    by apply walk_insert.
  - rewrite length_app, map_size_insert_None by done. simpl. lia.
  - rewrite <- Hout. by apply chain_output_snoc with v.
  - apply Forall_app. split; [done|]. by repeat constructor.
Qed.

Lemma entries_ok_insert reverse u v conv :
  entries_ok CONVERTERS input_type reverse →
  reverse !! u = None → conv ∈ CONVERTERS → v ∈ supported_types conv →
  output_type conv = u →
  known CONVERTERS input_type reverse v →
  entries_ok CONVERTERS input_type (<[u := (v, conv)]> reverse).
Proof.
  intros Hok Hu Hin Hv Hout Hkv u' v' conv' Hl.
  destruct (decide (u = u')) as [<-|Hne].
  - rewrite lookup_insert_eq in Hl. injection Hl as <- <-.
    split_and!; [done|done|done|by apply known_insert|].
    by apply known_fresh.
  - rewrite lookup_insert_ne in Hl by done.
    destruct (Hok _ _ _ Hl) as (? & ? & ? & ? & ?).
    split_and!; [done|done|done|by apply known_insert|by apply known_insert].
Qed.

Lemma entries_ok_empty : entries_ok CONVERTERS input_type ∅.
Proof. intros u v conv Hl. by rewrite lookup_empty in Hl. Qed.

Lemma entries_ok_size reverse :
  entries_ok CONVERTERS input_type reverse →
  size reverse ≤ length CONVERTERS.
Proof.
  intros Hok.
  assert (dom reverse ⊆ list_to_set (output_type <$> CONVERTERS)) as Hsub.
  { intros u [[v conv] Hl]%elem_of_dom.
    destruct (Hok _ _ _ Hl) as (Hin & _ & <- & _).
    apply elem_of_list_to_set, list_elem_of_fmap. eauto. }
  apply subseteq_size in Hsub. rewrite size_dom in Hsub.
  pose proof (size_list_to_set_le (output_type <$> CONVERTERS)) as Hle.
  rewrite length_fmap in Hle. lia.
Qed.

(** One pass of the [for] loop over the converters of [v]. *)
Lemma visit_spec v convs reverse queue r q hit :
  visit output_types v convs reverse queue = (r, q, hit) →
  (∀ c, c ∈ convs → c ∈ CONVERTERS ∧ v ∈ supported_types c) →
  known CONVERTERS input_type reverse v →
  entries_ok CONVERTERS input_type reverse →
  Forall (known CONVERTERS input_type reverse) queue →
  output_types ∩ dom reverse = ∅ →
  entries_ok CONVERTERS input_type r ∧
  Forall (known CONVERTERS input_type r) q ∧
  length q + size reverse = length queue + size r ∧
  (if hit then ∃ u, output_types ∩ dom r = {[u]}
   else output_types ∩ dom r = ∅).
Proof.
  revert reverse queue.
  induction convs as [|conv convs IH]; intros reverse queue Hv Hc Hkv Hok Hq Hno;
    simpl in Hv.
  - injection Hv as <- <- <-. split_and!; done.
  - destruct (Hc conv) as [Hin Hsup]; [by left|].
    assert (∀ c, c ∈ convs → c ∈ CONVERTERS ∧ v ∈ supported_types c) as Hc'.
    { intros c ?. apply Hc. by right. }
    destruct (reverse !! output_type conv) as [e|] eqn:Hl.
    + case_decide as Hacc.
      * exfalso. apply elem_of_dom_2 in Hl. set_solver.
      * by apply IH.
    + assert (entries_ok CONVERTERS input_type
                (<[output_type conv := (v, conv)]> reverse)) as Hok'.
      { by apply entries_ok_insert. }
      assert (Forall (known CONVERTERS input_type
                        (<[output_type conv := (v, conv)]> reverse))
                     (output_type conv :: queue)) as Hq'.
      { constructor; [by apply known_fresh|].
        eapply Forall_impl; [exact Hq|]. intros x. by apply known_insert. }
      case_decide as Hacc.
      * injection Hv as <- <- <-. split_and!; [done|done| |].
        { rewrite map_size_insert_None by done. simpl. lia. }
        exists (output_type conv). rewrite dom_insert_L. set_solver.
      * apply IH in Hv; [|done|by apply known_insert|done|done|].
        { destruct Hv as (? & ? & Hlen & ?). split_and!; [done|done| |done].
          rewrite map_size_insert_None in Hlen by done. simpl in Hlen. lia. }
        rewrite dom_insert_L. set_solver.
Qed.

(** The [while] loop ends within the fuel, and leaves at most one accepted
    type among the keys of [reverse]. *)
Lemma bfs_loop_spec fuel reverse queue :
  entries_ok CONVERTERS input_type reverse →
  Forall (known CONVERTERS input_type reverse) queue →
  output_types ∩ dom reverse = ∅ →
  length CONVERTERS + length queue < fuel + size reverse →
  ∃ r, bfs_loop CONVERTERS fuel output_types reverse queue = Some r ∧
       entries_ok CONVERTERS input_type r ∧
       (output_types ∩ dom r = ∅ ∨ ∃ u, output_types ∩ dom r = {[u]}).
Proof.
  revert reverse queue.
  induction fuel as [|fuel IH]; intros reverse queue Hok Hq Hno Hfuel.
  - apply entries_ok_size in Hok. lia.
  - destruct queue as [|v rest]; simpl.
    { exists reverse. split_and!; [done|done|by left]. }
    destruct (visit output_types v (converters_for_type CONVERTERS !!! v)
                reverse rest) as [[r q] hit] eqn:Hv.
    apply Forall_cons in Hq as [Hkv Hrest].
    apply visit_spec in Hv as (Hok' & Hq' & Hlen & Hhit); [|..|done];
      [|by intros c ?%elem_of_converters_for_type|done|done|done].
    destruct hit.
    + exists r. split_and!; [done|done|by right].
    + apply IH; [done|done|done|]. simpl in Hfuel. lia.
Qed.

Lemma bfs_spec :
  ∃ r, bfs CONVERTERS input_type output_types = Some r ∧
       entries_ok CONVERTERS input_type r ∧
       (output_types ∩ dom r = ∅ ∨ ∃ u, output_types ∩ dom r = {[u]}).
Proof.
  apply bfs_loop_spec.
  - apply entries_ok_empty.
  - constructor; [apply known_input|constructor].
  - rewrite dom_empty_L. set_solver.
  - rewrite map_size_empty. simpl. lia.
Qed.

Lemma walk_back_spec reverse v p :
  walk input_type reverse v p →
  ∀ fuel pipeline, length p < fuel →
    walk_back fuel reverse input_type v pipeline = Return (p ++ pipeline).
Proof.
  induction 1 as [|u v conv p Hne Hl _ IH]; intros fuel pipeline Hfuel.
  - destruct fuel; [simpl in Hfuel; lia|]. simpl. by rewrite decide_True.
  - rewrite length_app in Hfuel. simpl in Hfuel.
    destruct fuel; [lia|]. simpl. rewrite decide_False by done.
    rewrite Hl, IH by lia. by rewrite <- app_assoc.
Qed.

Lemma key_has_chain reverse u :
  entries_ok CONVERTERS input_type reverse → u ∈ dom reverse →
  ∃ q, q ≠ [] ∧ Forall (λ c, c ∈ CONVERTERS) q ∧
       chain_output input_type q = Some u.
Proof.
  intros Hok [[v conv] Hl]%elem_of_dom.
  destruct (Hok _ _ _ Hl) as (Hin & Hv & Hout & (p & _ & _ & Hp & Hall) & _).
  exists (p ++ [conv]). split_and!.
  - by destruct p.
  - apply Forall_app. split; [done|]. by repeat constructor.
  - rewrite <- Hout. by apply chain_output_snoc with v.
Qed.

(** The two ways [get_converter_chain] ends. *)
Lemma get_converter_chain_cases :
  ∃ r, bfs CONVERTERS input_type output_types = Some r ∧
       entries_ok CONVERTERS input_type r ∧
       ((output_types ∩ dom r = ∅ ∧
         get_converter_chain CONVERTERS input_type output_types =
           Raise (NoConverterAvailableError input_type output_types)) ∨
        (∃ u p, output_types ∩ dom r = {[u]} ∧
                walk input_type r u p ∧
                chain_output input_type p = Some u ∧
                Forall (λ c, c ∈ CONVERTERS) p ∧
                get_converter_chain CONVERTERS input_type output_types =
                  Return p)).
Proof.
  destruct bfs_spec as (r & Hb & Hok & Hcases).
  exists r. split_and!; [done|done|].
  unfold get_converter_chain. rewrite Hb. cbv beta iota zeta.
  destruct Hcases as [Hemp|[u Hu]].
  - left. by rewrite Hemp, elements_empty.
  - right. rewrite Hu, elements_singleton.
    assert (u ∈ dom r) as [[v conv] Hl]%elem_of_dom by set_solver.
    destruct (Hok _ _ _ Hl) as (_ & _ & _ & _ & (p & Hw & Hlen & Hp & Hall)).
    exists u, p. split_and!; [done|done|done|done|].
    rewrite (walk_back_spec _ _ _ Hw) by lia. by rewrite app_nil_r.
Qed.

(** The call always ends, with a pipeline or with
    [NoConverterAvailableError]. *)
Lemma get_converter_chain_total :
  get_converter_chain CONVERTERS input_type output_types =
    Raise (NoConverterAvailableError input_type output_types) ∨
  ∃ p, get_converter_chain CONVERTERS input_type output_types = Return p.
Proof.
  destruct get_converter_chain_cases as (r & _ & _ & [[_ ->]|Hret]);
    [by left|].
  destruct Hret as (u & p & _ & _ & _ & _ & ->). right. by exists p.
Qed.

(** [output_types & reverse.keys()] has at most one element, so
    [next(iter(intersect))] does not depend on the order of the set. *)
Lemma intersect_at_most_one r :
  bfs CONVERTERS input_type output_types = Some r →
  size (output_types ∩ dom r) ≤ 1.
Proof.
  intros Hb. destruct bfs_spec as (r' & Hb' & _ & Hcases).
  rewrite Hb in Hb'. injection Hb' as <-.
  destruct Hcases as [->|[u ->]].
  - rewrite size_empty. lia.
  - rewrite size_singleton. lia.
Qed.

(** A returned pipeline is a chain of registered converters from
    [input_type] to an accepted type, and some chain of one stage or more
    reaches that type. *)
Lemma get_converter_chain_sound p :
  get_converter_chain CONVERTERS input_type output_types = Return p →
  ∃ u, u ∈ output_types ∧ chain_output input_type p = Some u ∧
       Forall (λ c, c ∈ CONVERTERS) p ∧
       ∃ q, q ≠ [] ∧ Forall (λ c, c ∈ CONVERTERS) q ∧
            chain_output input_type q = Some u.
Proof.
  intros Hret.
  destruct get_converter_chain_cases as (r & _ & Hok & [[_ Hr]|Hcase]).
  { rewrite Hr in Hret. discriminate. }
  destruct Hcase as (u & p' & Hu & _ & Hp & Hall & Hr).
  rewrite Hr in Hret. injection Hret as ->.
  exists u. split_and!; [set_solver|done|done|].
  apply key_has_chain with r; [done|set_solver].
Qed.

(** When a registered converter takes [input_type] straight to an accepted
    type, the pipeline has at most one stage. *)
Lemma visit_first_hit convs reverse queue :
  (∃ d, d ∈ convs ∧ output_type d ∈ output_types) →
  (∀ u v c, reverse !! u = Some (v, c) → v = input_type) →
  ∃ r q, visit output_types input_type convs reverse queue = (r, q, true) ∧
         ∀ u v c, r !! u = Some (v, c) → v = input_type.
Proof.
  revert reverse queue.
  induction convs as [|conv convs IH]; intros reverse queue (d & Hd & Hacc) Hrev.
  { by apply elem_of_nil in Hd. }
  assert (∀ u v c,
            match reverse !! output_type conv with
            | None => <[output_type conv := (input_type, conv)]> reverse
            | Some _ => reverse
            end !! u = Some (v, c) → v = input_type) as Hrev'.
  { intros u v c. destruct (reverse !! output_type conv) eqn:Hl; [apply Hrev|].
    destruct (decide (output_type conv = u)) as [<-|Hne].
    - rewrite lookup_insert_eq. by intros [= <- <-].
    - rewrite lookup_insert_ne by done. apply Hrev. }
  simpl. case_decide as Hconv.
  - destruct (reverse !! output_type conv); eauto.
  - apply elem_of_cons in Hd as [->|Hd]; [done|].
    destruct (reverse !! output_type conv); apply IH; eauto.
Qed.

Lemma walk_direct r u p :
  (∀ u v c, r !! u = Some (v, c) → v = input_type) →
  walk input_type r u p → length p ≤ 1.
Proof.
  intros Hrev Hw.
  inversion Hw as [|u' v conv p' Hne Hl Hw']; subst; [simpl; lia|].
  apply Hrev in Hl as ->.
  inversion Hw' as [|? ? ? ? Hne' ? ?]; subst; [simpl; lia|done].
Qed.

Lemma get_converter_chain_direct d :
  d ∈ CONVERTERS → input_type ∈ supported_types d →
  output_type d ∈ output_types →
  ∃ p, get_converter_chain CONVERTERS input_type output_types = Return p ∧
       length p ≤ 1.
Proof.
  intros Hd Hsup Hacc.
  destruct (visit_first_hit (converters_for_type CONVERTERS !!! input_type)
              ∅ []) as (r & q & Hv & Hrev).
  { exists d. split; [|done]. by apply elem_of_converters_for_type. }
  { intros u v c Hl. by rewrite lookup_empty in Hl. }
  assert (bfs CONVERTERS input_type output_types = Some r) as Hb.
  { unfold bfs. simpl. by rewrite Hv. }
  pose proof Hv as Hv'.
  apply visit_spec in Hv' as (_ & _ & _ & (u & Hu));
    [|by intros c ?%elem_of_converters_for_type|apply known_input
     |apply entries_ok_empty|constructor|rewrite dom_empty_L; set_solver].
  destruct get_converter_chain_cases as (r' & Hb' & _ & Hcase).
  rewrite Hb in Hb'. injection Hb' as <-.
  destruct Hcase as [[Hemp _]|(u' & p & _ & Hw & _ & _ & Hr)].
  { rewrite Hemp in Hu. set_solver. }
  exists p. split; [done|]. by apply walk_direct with r u'.
Qed.

(** *** Completeness of the traversal *)

Lemma visit_grows v convs reverse queue r q hit :
  visit output_types v convs reverse queue = (r, q, hit) →
  dom reverse ⊆ dom r ∧
  (∀ x, x ∈ queue → x ∈ q) ∧
  (∀ x, x ∈ dom r → x ∈ dom reverse ∨ x ∈ q) ∧
  (if hit then ∃ u, u ∈ output_types ∧ u ∈ dom r
   else ∀ c, c ∈ convs → output_type c ∈ dom r).
Proof.
  revert reverse queue.
  induction convs as [|conv convs IH]; intros reverse queue Hv; simpl in Hv.
  { injection Hv as <- <- <-. split_and!; [done|done|by left|].
    intros c Hc. by apply elem_of_nil in Hc. }
  destruct (reverse !! output_type conv) as [e|] eqn:Hl.
  - apply elem_of_dom_2 in Hl. case_decide as Hacc.
    + injection Hv as <- <- <-. split_and!; [done|done|by left|eauto].
    + apply IH in Hv as (Hsub & Hq & Hnew & Hhit).
      split_and!; [done|done|done|].
      destruct hit; [done|]. intros c [->|Hc]%elem_of_cons; [|by apply Hhit].
      by apply Hsub.
  - case_decide as Hacc.
    + injection Hv as <- <- <-. rewrite dom_insert_L.
      split_and!; [set_solver|set_solver|set_solver|].
      exists (output_type conv). set_solver.
    + apply IH in Hv as (Hsub & Hq & Hnew & Hhit).
      rewrite dom_insert_L in Hsub, Hnew.
      split_and!; [set_solver|set_solver| |].
      * intros x [[->%elem_of_singleton|Hx]%elem_of_union|Hx]%Hnew.
        -- right. apply Hq. by left.
        -- by left.
        -- by right.
      * destruct hit; [done|].
        intros c [->|Hc]%elem_of_cons; [|by apply Hhit]. set_solver.
Qed.

Lemma expanded_mono reverse r x :
  dom reverse ⊆ dom r →
  expanded CONVERTERS reverse x → expanded CONVERTERS r x.
Proof. intros Hsub Hx c Hc Hsup. by apply Hsub, Hx. Qed.

Lemma bfs_loop_complete fuel reverse queue r :
  frontier_ok CONVERTERS input_type reverse queue →
  bfs_loop CONVERTERS fuel output_types reverse queue = Some r →
  output_types ∩ dom r = ∅ →
  ∀ x, x = input_type ∨ x ∈ dom r → expanded CONVERTERS r x.
Proof.
  revert reverse queue.
  induction fuel as [|fuel IH]; intros reverse queue Hfr Hb Hno; [done|].
  destruct queue as [|v rest]; simpl in Hb.
  { injection Hb as <-. intros x Hx.
    destruct (Hfr x Hx) as [Hin|Hexp]; [|done]. by apply elem_of_nil in Hin. }
  destruct (visit output_types v (converters_for_type CONVERTERS !!! v)
              reverse rest) as [[r' q'] hit] eqn:Hv.
  apply visit_grows in Hv as (Hsub & Hq & Hnew & Hhit).
  destruct hit.
  { injection Hb as <-. destruct Hhit as (u & Hu & Hdom). set_solver. }
  apply (IH r' q'); [|done|done].
  intros x Hx.
  assert (x = v ∨ x ∈ rest ∨ expanded CONVERTERS reverse x ∨ x ∈ q')
    as [->|[Hin|[Hexp|Hin]]].
  { destruct Hx as [->|[Hx|Hx]%Hnew]; [| |by right; right; right].
    - destruct (Hfr input_type) as [[->|?]%elem_of_cons|?]; auto.
    - destruct (Hfr x) as [[->|?]%elem_of_cons|?]; auto. }
  - right. intros c Hc Hsup. apply Hhit.
    by apply elem_of_converters_for_type.
  - left. by apply Hq.
  - right. by apply expanded_mono with reverse.
  - by left.
Qed.

Lemma expanded_chain r x q u :
  (∀ y, y = input_type ∨ y ∈ dom r → expanded CONVERTERS r y) →
  x = input_type ∨ x ∈ dom r →
  Forall (λ c, c ∈ CONVERTERS) q →
  chain_output x q = Some u →
  q ≠ [] → u ∈ dom r.
Proof.
  intros Hexp. revert x.
  induction q as [|c q IH]; intros x Hx Hall Hout Hq; [done|].
  apply Forall_cons in Hall as [Hc Hall]. simpl in Hout.
  case_decide as Hsup; [|done].
  assert (output_type c ∈ dom r) as Hdom by by apply (Hexp x).
  destruct q as [|c' q'].
  - simpl in Hout. by injection Hout as <-.
  - apply (IH (output_type c)); [by right|done|done|done].
Qed.

(** The call raises exactly when no chain of one or more registered
    converters leads from [input_type] to an accepted type. *)
Lemma get_converter_chain_raises_iff :
  get_converter_chain CONVERTERS input_type output_types =
    Raise (NoConverterAvailableError input_type output_types) ↔
  ∀ q, q ≠ [] → ¬ transforms CONVERTERS input_type output_types q.
Proof.
  split.
  - intros Hr q Hq [Hall Hout].
    destruct (chain_output input_type q) as [u|] eqn:Hu; [|done].
    destruct get_converter_chain_cases as (r & Hb & _ & Hcase).
    destruct Hcase as [[Hemp _]|(? & ? & _ & _ & _ & _ & Hret)];
      [|by rewrite Hret in Hr].
    assert (u ∈ dom r); [|set_solver].
    apply (expanded_chain r input_type q u); [|by left|done|done|done].
    apply (bfs_loop_complete (S (S (length CONVERTERS))) ∅ [input_type]);
      [|done|done].
    intros x [->|Hx]; [left; by left|].
    rewrite dom_empty_L in Hx. set_solver.
  - intros Hno. destruct get_converter_chain_total as [Hr|[p Hr]]; [done|].
    apply get_converter_chain_sound in Hr
      as (u & Hu & _ & _ & q & Hq & Hall & Hout).
    destruct (Hno q Hq). split; [done|]. by rewrite Hout.
Qed.

End traversal_facts.

Section chain_shape.
Context {C : Type} `{ConverterAttrs C}.

(** A chain that ends on an accepted type meets the three conditions of a
    valid pipeline. *)
Lemma chain_output_valid (t u : string) (accepted : gset string)
    (p : list C) :
  chain_output t p = Some u → u ∈ accepted → valid_chain t accepted p.
Proof.
  revert t. induction p as [|c p IH]; intros t Hp Hu.
  { split_and!; [by intros c1 [=]| |by intros cn [=]].
    intros i ci cj Hi. by rewrite lookup_nil in Hi. }
  simpl in Hp. case_decide as Hsup; [|done].
  destruct (IH _ Hp Hu) as (Hhead & Hcons & Hlast). split_and!.
  - by intros c1 [= <-].
  - intros [|i] ci cj Hi Hj; simpl in Hi, Hj.
    + injection Hi as <-. apply Hhead. by rewrite head_lookup.
    + by apply Hcons with i.
  - intros cn Hcn. destruct p as [|c' p'].
    + injection Hcn as <-. simpl in Hp. by injection Hp as <-.
    + apply Hlast. by rewrite last_cons_cons in Hcn.
Qed.
End chain_shape.

Lemma resolved_chain_valid {C : Type} `{ConverterAttrs C}
    (registry : list C) (input_type : string) (output_types : gset string)
    (p : list C) :
  get_converter_chain registry input_type output_types = Return p →
  valid_chain input_type output_types p.
Proof.
  intros (u & Hu & Hp & _)%get_converter_chain_sound.
  by apply chain_output_valid with u.
Qed.

(** ** The registry of the module *)

Lemma elem_of_CONVERTERS (w : World) (c : Converter) :
  c ∈ CONVERTERS w ↔ is_available w c = true.
Proof.
  unfold CONVERTERS. rewrite list_elem_of_filter, Is_true_true.
  split; [by intros [? _]|]. intros Hc. split; [done|].
  unfold CONVERTERS_ALL. destruct c; set_solver.
Qed.

Lemma CONVERTERS_unfold (w : World) :
  CONVERTERS w =
  (if is_available w ImageConverter then [ImageConverter] else []) ++
  (if is_available w DocConverter then [DocConverter] else []) ++
  (if is_available w PDFConverter then [PDFConverter] else []).
Proof.
  unfold CONVERTERS, CONVERTERS_ALL, is_available, binary_exists.
  by destruct (which w "convert"), (which w "unoconv"), (which w "gs").
Qed.

(** No chain of the module's converter classes has three stages, and none
    leads from a type back to itself. *)
Lemma chain_length_le_2 (t u : string) (p : list Converter) :
  chain_output t p = Some u → length p ≤ 2.
Proof.
  destruct p as [|c1 [|c2 [|c3 p]]]; simpl; [lia..|].
  intros Hp. exfalso. repeat case_decide; try done.
  destruct c1, c2, c3; set_solver.
Qed.

Lemma chain_acyclic (t : string) (p : list Converter) :
  chain_output t p = Some t → p = [].
Proof.
  intros Hp. pose proof (chain_length_le_2 _ _ _ Hp) as Hlen.
  destruct p as [|c1 [|c2 [|c3 p]]]; [done| | |simpl in Hlen; lia];
    exfalso; simpl in Hp; repeat case_decide; try done;
    injection Hp as <-.
  - destruct c1; set_solver.
  - destruct c1, c2; set_solver.
Qed.

(** On the module's classes [reverse] never holds [input_type], and the
    resolver never returns the empty pipeline. *)
Lemma start_not_recorded (registry : list Converter) (input_type : string)
    (reverse : gmap string (string * Converter)) :
  entries_ok registry input_type reverse → input_type ∉ dom reverse.
Proof.
  intros Hok (q & Hq & _ & Hout)%(key_has_chain registry input_type); [|done].
  by apply chain_acyclic in Hout.
Qed.

Lemma resolved_chain_nonempty (registry : list Converter)
    (input_type : string) (output_types : gset string) :
  get_converter_chain registry input_type output_types ≠ Return [].
Proof.
  destruct (get_converter_chain_cases registry input_type output_types)
    as (r & _ & Hok & [[_ ->]|(u & p & Hu & _ & Hp & _ & ->)]); [done|].
  intros [= ->]. simpl in Hp. injection Hp as <-.
  apply (start_not_recorded _ _ _ Hok). set_solver.
Qed.

(** ** The pipeline resolver on the module's registry *)

(** C4.  Every pipeline [get_converter_chain] returns is a valid chain: its
    first stage supports [input_type], every stage supports the output type
    of the stage before it, and the output type of its last stage is a
    member of [output_types]. *)
Theorem get_converter_chain_valid (w : World) (input_type : string)
    (output_types : gset string) (p : list Converter) :
  get_converter_chain (CONVERTERS w) input_type output_types = Return p →
  valid_chain input_type output_types p.
Proof. apply resolved_chain_valid. Qed.

Lemma get_converter_chain_valid_witness :
  get_converter_chain (CONVERTERS demo_world) "image/png" {["gutenberg/pdf"]}
    = Return [ImageConverter; PDFConverter] ∧
  valid_chain "image/png" {["gutenberg/pdf"]} [ImageConverter; PDFConverter].
Proof.
  split; [vm_compute; reflexivity|].
  apply (get_converter_chain_valid demo_world). vm_compute. reflexivity.
Defined.

(** C3.  When no chain of one or more available converters leads from
    [input_type] to a member of [output_types], and in particular when no
    available converter supports [input_type], [get_converter_chain] raises
    [NoConverterAvailableError] built from [input_type] and the whole of
    [output_types]. *)
Theorem get_converter_chain_no_chain (w : World) (input_type : string)
    (output_types : gset string) :
  ((∀ q, q ≠ [] → ¬ transforms (CONVERTERS w) input_type output_types q) →
   get_converter_chain (CONVERTERS w) input_type output_types =
     Raise (NoConverterAvailableError input_type output_types)) ∧
  ((∀ c, c ∈ CONVERTERS w → input_type ∉ supported_types c) →
   get_converter_chain (CONVERTERS w) input_type output_types =
     Raise (NoConverterAvailableError input_type output_types)).
Proof.
  assert ((∀ q, q ≠ [] →
             ¬ transforms (CONVERTERS w) input_type output_types q) →
          get_converter_chain (CONVERTERS w) input_type output_types =
            Raise (NoConverterAvailableError input_type output_types))
    as Hmain.
  { apply get_converter_chain_raises_iff. }
  split; [done|]. intros Hnone. apply Hmain.
  intros [|c q] Hq [Hall Hout]; [done|].
  apply Forall_cons in Hall as [Hc _]. simpl in Hout.
  case_decide; [|done]. by destruct (Hnone c).
Qed.

Lemma get_converter_chain_no_chain_witness :
  get_converter_chain (CONVERTERS demo_world) "text/unknown"
    {["application/pdf"]} =
  Raise (NoConverterAvailableError "text/unknown" {["application/pdf"]}).
Proof.
  apply (get_converter_chain_no_chain demo_world).
  intros c _. destruct c; vm_compute; set_solver.
Defined.

(** C7.  A converter whose [is_available] probe returns false is not in
    [CONVERTERS], and no pipeline [get_converter_chain] returns contains it,
    whatever the input type and the accepted set. *)
Theorem unavailable_converter_excluded (w : World) (c : Converter) :
  is_available w c = false →
  (c ∉ CONVERTERS w) ∧
  ∀ input_type output_types p,
    get_converter_chain (CONVERTERS w) input_type output_types = Return p →
    c ∉ p.
Proof.
  intros Hc.
  assert (c ∉ CONVERTERS w) as Hnot.
  { rewrite elem_of_CONVERTERS, Hc. done. }
  split; [done|]. intros input_type output_types p Hp Hin.
  apply get_converter_chain_sound in Hp as (_ & _ & _ & Hall & _).
  rewrite Forall_forall in Hall. by apply Hnot, Hall.
Qed.

Lemma unavailable_converter_excluded_witness :
  is_available world_without_convert ImageConverter = false ∧
  CONVERTERS world_without_convert = [DocConverter; PDFConverter] ∧
  (ImageConverter ∉ CONVERTERS world_without_convert).
Proof.
  split; [reflexivity|]. split; [reflexivity|].
  apply (unavailable_converter_excluded world_without_convert ImageConverter).
  reflexivity.
Defined.

(** C8.  With [ImageConverter] and [PDFConverter] available, resolving
    ["image/jpeg"] against the accepted set [{"application/pdf"}] returns
    exactly [[ImageConverter]]; the two-stage pipeline
    [[ImageConverter; PDFConverter]] is returned only when
    ["gutenberg/pdf"], the output type of [PDFConverter], is accepted, and
    it is returned when that type is accepted and ["application/pdf"] is
    not. *)
Theorem jpeg_to_pdf_single_stage (w : World) :
  is_available w ImageConverter = true →
  is_available w PDFConverter = true →
  get_converter_chain (CONVERTERS w) "image/jpeg" {["application/pdf"]} =
    Return [ImageConverter] ∧
  (∀ output_types,
     get_converter_chain (CONVERTERS w) "image/jpeg" output_types =
       Return [ImageConverter; PDFConverter] →
     output_type PDFConverter ∈ output_types) ∧
  (∀ output_types,
     "application/pdf" ∉ output_types → "gutenberg/pdf" ∈ output_types →
     get_converter_chain (CONVERTERS w) "image/jpeg" output_types =
       Return [ImageConverter; PDFConverter]).
Proof.
  intros Hi Hp. split_and!.
  - rewrite CONVERTERS_unfold, Hi, Hp.
    destruct (is_available w DocConverter); vm_compute; reflexivity.
  - intros output_types Hr.
    apply resolved_chain_valid in Hr as (_ & _ & Hlast).
    by apply Hlast.
  - intros output_types Hpdf Hgpdf.
    destruct (get_converter_chain_total (CONVERTERS w) "image/jpeg"
                output_types) as [Hr|[p Hr]].
    + exfalso.
      pose proof (proj1 (get_converter_chain_raises_iff _ _ _) Hr) as Hno.
      apply (Hno [ImageConverter; PDFConverter]); [done|].
      split; [|done].
      repeat constructor; by apply elem_of_CONVERTERS.
    + assert (p ≠ []) as Hne.
      { intros ->. by apply (resolved_chain_nonempty _ _ _ Hr). }
      rewrite Hr. f_equal.
      apply get_converter_chain_sound in Hr as (u & Hu & Hout & _).
      pose proof (chain_length_le_2 _ _ _ Hout) as Hlen.
      destruct p as [|c1 [|c2 [|c3 p]]]; [done| | |simpl in Hlen; lia];
        simpl in Hout; repeat case_decide; try done; injection Hout as <-.
      * destruct c1; set_solver.
      * destruct c1, c2; set_solver.
Qed.

Lemma jpeg_to_pdf_single_stage_witness :
  get_converter_chain (CONVERTERS demo_world) "image/jpeg"
    {["application/pdf"]} = Return [ImageConverter].
Proof.
  apply (jpeg_to_pdf_single_stage demo_world); reflexivity.
Defined.

(** C9.  Called with an [input_type] that is already a member of
    [output_types], [get_converter_chain] does not return the empty
    pipeline: [reverse] never holds [input_type] itself, so unless a chain
    of one or more available converters leads from [input_type] to an
    accepted type the call raises [NoConverterAvailableError]. *)
Theorem get_converter_chain_input_accepted (w : World) (input_type : string)
    (output_types : gset string) :
  input_type ∈ output_types →
  (∃ r, bfs (CONVERTERS w) input_type output_types = Some r ∧
        input_type ∉ dom r) ∧
  get_converter_chain (CONVERTERS w) input_type output_types ≠ Return [] ∧
  ((∀ q, q ≠ [] → ¬ transforms (CONVERTERS w) input_type output_types q) →
   get_converter_chain (CONVERTERS w) input_type output_types =
     Raise (NoConverterAvailableError input_type output_types)).
Proof.
  intros Hacc.
  destruct (get_converter_chain_cases (CONVERTERS w) input_type output_types)
    as (r & Hb & Hok & Hcase).
  split_and!.
  - exists r. split; [done|]. by apply start_not_recorded with (CONVERTERS w).
  - apply resolved_chain_nonempty.
  - apply get_converter_chain_raises_iff.
Qed.

Lemma get_converter_chain_input_accepted_witness :
  get_converter_chain (CONVERTERS demo_world) "application/pdf"
    {["application/pdf"]} ≠ Return [].
Proof.
  apply (get_converter_chain_input_accepted demo_world "application/pdf"
           {["application/pdf"]}).
  vm_compute. set_solver.
Defined.

(** C2, as stated, fails: with every converter available, the input type
    ["application/pdf"] and the accepted set
    [{"application/pdf", "gutenberg/pdf"}], the call returns the one-stage
    pipeline [[PDFConverter]] although the empty chain already leads to an
    accepted type. *)
Lemma get_converter_chain_not_minimal_with_empty_chain :
  get_converter_chain (CONVERTERS demo_world) "application/pdf"
    {["application/pdf"; "gutenberg/pdf"]} = Return [PDFConverter] ∧
  transforms (CONVERTERS demo_world) "application/pdf"
    {["application/pdf"; "gutenberg/pdf"]} [] ∧
  length ([] : list Converter) < length [PDFConverter].
Proof.
  split; [vm_compute; reflexivity|]. split; [|simpl; lia].
  split; [constructor|]. simpl. set_solver.
Qed.

(** C2, amended.  A pipeline [get_converter_chain] returns has at least one
    stage and is minimal among the chains of one or more available
    converters: no strictly shorter chain of at least one stage transforms
    [input_type] into a member of [output_types]. *)
Theorem get_converter_chain_minimal (w : World) (input_type : string)
    (output_types : gset string) (p : list Converter) :
  get_converter_chain (CONVERTERS w) input_type output_types = Return p →
  p ≠ [] ∧
  ∀ q, q ≠ [] → transforms (CONVERTERS w) input_type output_types q →
       length p ≤ length q.
Proof.
  intros Hp. split.
  { intros ->. by apply (resolved_chain_nonempty _ _ _ Hp). }
  intros q Hq [Hall Hout].
  destruct q as [|d [|d' q]]; [done| |].
  - apply Forall_cons in Hall as [Hd _]. simpl in Hout.
    case_decide as Hsup; [|done].
    destruct (get_converter_chain_direct (CONVERTERS w) input_type
                output_types d) as (p' & Hp' & Hlen); [done..|].
    rewrite Hp in Hp'. by injection Hp' as <-.
  - apply get_converter_chain_sound in Hp as (u & _ & Hchain & _).
    apply chain_length_le_2 in Hchain. simpl. lia.
Qed.

Lemma get_converter_chain_minimal_witness :
  [ImageConverter] ≠ [] ∧
  ∀ q, q ≠ [] →
       transforms (CONVERTERS demo_world) "image/jpeg"
         {["application/pdf"; "gutenberg/pdf"]} q →
       length [ImageConverter] ≤ length q.
Proof.
  apply (get_converter_chain_minimal demo_world "image/jpeg"
           {["application/pdf"; "gutenberg/pdf"]}).
  vm_compute. reflexivity.
Defined.

(** ** The orchestrator *)

Lemma convert_ok (w : World) (c : Converter) (work_dir file : string)
    (tr : list (list string)) :
  run_process w tr ([SANDBOX_PATH w; work_dir] ++ command c work_dir file)
    = Exited 0 →
  convert w c work_dir file tr =
    (Return (out_file c work_dir),
     tr ++ [[SANDBOX_PATH w; work_dir] ++ command c work_dir file]).
Proof.
  intros Hok.
  unfold convert, run_in_sandbox, check_call, mbind, M_bind, mret, M_ret.
  by rewrite Hok.
Qed.

(** What a stage that does not exit with status zero leaves. *)
Lemma convert_fail (w : World) (c : Converter) (work_dir file : string)
    (tr : list (list string)) :
  convert w c work_dir file tr =
    (match run_process w tr
             ([SANDBOX_PATH w; work_dir] ++ command c work_dir file) with
     | Exited returncode =>
         if decide (returncode = 0%Z) then Return (out_file c work_dir)
         else Raise (CalledProcessError returncode
                       ([SANDBOX_PATH w; work_dir] ++ command c work_dir file))
     | NotStarted =>
         Raise (OSError ([SANDBOX_PATH w; work_dir] ++ command c work_dir file))
     | NeverExits => Hangs
     end,
     tr ++ [[SANDBOX_PATH w; work_dir] ++ command c work_dir file]).
Proof.
  unfold convert, run_in_sandbox, check_call, mbind, M_bind, mret, M_ret.
  destruct (run_process w tr _) as [returncode| |]; [|done..].
  by case_decide.
Qed.

(** The commands of the stages, one by one. *)
Lemma stage_commands_lookup (w : World) (work_dir : string)
    (p : list Converter) (file : string) :
  length (stage_commands w work_dir p file) = length p ∧
  ∀ i c, p !! i = Some c →
    ∃ f, stage_commands w work_dir p file !! i =
           Some ([SANDBOX_PATH w; work_dir] ++ command c work_dir f) ∧
         (i = 0 → f = file) ∧
         (∀ j c', i = S j → p !! j = Some c' → f = out_file c' work_dir).
Proof.
  revert file. induction p as [|c p IH]; intros file.
  { split; [done|]. intros i c Hi. by rewrite lookup_nil in Hi. }
  destruct (IH (out_file c work_dir)) as (Hlen & Hcmds). split.
  { simpl. by rewrite Hlen. }
  intros [|i] c0 Hi; simpl in Hi.
  - injection Hi as <-. exists file. split_and!; [done|done|].
    intros j c' [=].
  - destruct (Hcmds i c0 Hi) as (f & Hf & Hfirst & Hnext).
    exists f. split_and!; [done|done|].
    intros j c' [= <-] Hj. destruct i as [|k]; simpl in Hj.
    + injection Hj as <-. by apply Hfirst.
    + by apply (Hnext k).
Qed.

(** The [for] loop over a pipeline when every command exits with status
    zero at the time it is run. *)
Lemma run_pipeline_ok (w : World) (work_dir : string) (p : list Converter)
    (file : string) (tr : list (list string)) :
  (∀ i cmd, stage_commands w work_dir p file !! i = Some cmd →
            run_process w (tr ++ take i (stage_commands w work_dir p file)) cmd
              = Exited 0) →
  run_pipeline w work_dir p file tr =
    (Return (default file ((λ c, out_file c work_dir) <$> last p)),
     tr ++ stage_commands w work_dir p file).
Proof.
  revert file tr. induction p as [|c p IH]; intros file tr Hok.
  { simpl. by rewrite app_nil_r. }
  simpl. unfold mbind, M_bind at 1. rewrite convert_ok.
  2: { specialize (Hok 0 _ eq_refl). simpl in Hok.
       by rewrite app_nil_r in Hok. }
  rewrite IH.
  - f_equal.
    + f_equal. destruct p as [|c' p']; [done|]. rewrite last_cons_cons.
      by destruct (last_is_Some (c' :: p')) as [_ [cn ->]].
    + by rewrite <- app_assoc.
  - intros i cmd Hi. specialize (Hok (S i) cmd Hi). simpl in Hok.
    by rewrite <- app_assoc.
Qed.

(** The [for] loop over a pipeline when the command of stage [k] is the
    first that does not exit with status zero. *)
Lemma run_pipeline_first_failure (w : World) (work_dir : string)
    (p : list Converter) (file : string) (tr : list (list string))
    (k : nat) (cmd : list string) :
  stage_commands w work_dir p file !! k = Some cmd →
  (∀ i cmd', i < k → stage_commands w work_dir p file !! i = Some cmd' →
             run_process w (tr ++ take i (stage_commands w work_dir p file))
               cmd' = Exited 0) →
  run_process w (tr ++ take k (stage_commands w work_dir p file)) cmd
    ≠ Exited 0 →
  run_pipeline w work_dir p file tr =
    (match run_process w (tr ++ take k (stage_commands w work_dir p file))
             cmd with
     | Exited returncode => Raise (CalledProcessError returncode cmd)
     | NotStarted => Raise (OSError cmd)
     | NeverExits => Hangs
     end,
     tr ++ take (S k) (stage_commands w work_dir p file)).
Proof.
  revert file tr k. induction p as [|c p IH]; intros file tr k Hk Hok Hko.
  { simpl in Hk. by rewrite lookup_nil in Hk. }
  destruct k as [|k]; simpl in Hk.
  - injection Hk as <-. simpl take in *. rewrite app_nil_r in *.
    simpl run_pipeline. unfold mbind, M_bind at 1.
    rewrite convert_fail.
    destruct (run_process w tr _) as [returncode| |]; [|done..].
    case_decide as Hz; [by subst|done].
  - pose proof (Hok 0 _ (Nat.lt_0_succ k) eq_refl) as H0. simpl in H0.
    rewrite app_nil_r in H0.
    assert (run_pipeline w work_dir (c :: p) file tr =
            run_pipeline w work_dir p (out_file c work_dir)
              (tr ++ [[SANDBOX_PATH w; work_dir] ++ command c work_dir file]))
      as ->.
    { simpl. unfold mbind, M_bind at 1. by rewrite convert_ok. }
    simpl stage_commands in *. simpl take in *.
    rewrite (IH _ _ k Hk).
    + by rewrite <- !app_assoc.
    + intros i cmd' Hi Hcmd. specialize (Hok (S i) cmd').
      simpl in Hok. rewrite <- app_assoc. apply Hok; [lia|done].
    + by rewrite <- app_assoc.
Qed.

(** The commands handed over are always a prefix of the commands of the
    stages. *)
Lemma run_pipeline_prefix (w : World) (work_dir : string)
    (p : list Converter) (file : string) (tr : list (list string)) :
  ∃ n, (run_pipeline w work_dir p file tr).2 =
       tr ++ take n (stage_commands w work_dir p file).
Proof.
  revert file tr. induction p as [|c p IH]; intros file tr.
  { exists 0. simpl. by rewrite app_nil_r. }
  simpl run_pipeline. unfold mbind, M_bind at 1. rewrite convert_fail.
  destruct (IH (out_file c work_dir)
              (tr ++ [[SANDBOX_PATH w; work_dir] ++ command c work_dir file]))
    as (n & Hn).
  destruct (run_process w tr _) as [returncode| |];
    [case_decide|..]; try (by exists 1).
  exists (S n). rewrite Hn. simpl. by rewrite <- app_assoc.
Qed.

(** When the detected type is accepted, the call returns at once, with no
    command run. *)
Lemma auto_convert_short_circuit (w : World) (input_file : string)
    (out_types : out_types_arg) (work_dir input_type : string)
    (tr : list (list string)) :
  from_file w input_file = Some input_type →
  input_type ∈ out_types_set out_types →
  auto_convert w input_file out_types work_dir tr = (Return input_type, tr).
Proof.
  intros Hdet Hacc.
  unfold auto_convert, magic_from_file, lift, mbind, M_bind, mret, M_ret.
  rewrite Hdet. by rewrite decide_True.
Qed.

(** Past the short circuit, the call is the resolver followed by the
    pipeline. *)
Lemma auto_convert_resolve (w : World) (input_file : string)
    (out_types : out_types_arg) (work_dir input_type : string)
    (tr : list (list string)) :
  from_file w input_file = Some input_type →
  input_type ∉ out_types_set out_types →
  auto_convert w input_file out_types work_dir tr =
    match get_converter_chain (CONVERTERS w) input_type
            (out_types_set out_types) with
    | Return pipeline => run_pipeline w work_dir pipeline input_file tr
    | Raise e => (Raise e, tr)
    | OutOfFuel => (OutOfFuel, tr)
    | Hangs => (Hangs, tr)
    end.
Proof.
  intros Hdet Hacc.
  unfold auto_convert, magic_from_file, lift, mbind, M_bind, mret, M_ret.
  rewrite Hdet. by rewrite decide_False.
Qed.

(** C1, on the code: the short circuit of [auto_convert] runs no converter,
    but returns the detected content type, not the path of the input
    file. *)
Theorem auto_convert_short_circuit_returns_type :
  from_file demo_world "/srv/jobs/scan.pdf" = Some "application/pdf" ∧
  auto_convert demo_world "/srv/jobs/scan.pdf" (OneType "application/pdf")
    "/tmp/work" [] = (Return "application/pdf", []) ∧
  "application/pdf" ≠ "/srv/jobs/scan.pdf".
Proof. split_and!; [reflexivity|vm_compute; reflexivity|done]. Qed.

(** C5, as stated, fails: on a host where [gs] exits with status 1 the
    detected type ["image/jpeg"] is not accepted and the resolver returns
    [[ImageConverter; PDFConverter]], yet [auto_convert] returns no file:
    the second stage raises [CalledProcessError]. *)
Lemma auto_convert_stage_failure :
  from_file world_gs_fails "/srv/jobs/photo.jpg" = Some "image/jpeg" ∧
  ("image/jpeg" ∉ out_types_set (OneType "gutenberg/pdf")) ∧
  get_converter_chain (CONVERTERS world_gs_fails) "image/jpeg"
    (out_types_set (OneType "gutenberg/pdf")) =
    Return [ImageConverter; PDFConverter] ∧
  auto_convert world_gs_fails "/srv/jobs/photo.jpg" (OneType "gutenberg/pdf")
    "/tmp/work" [] =
  (Raise (CalledProcessError 1
            ([SANDBOX_PATH world_gs_fails; "/tmp/work"] ++
             command PDFConverter "/tmp/work" "/tmp/work/out.pdf")),
   [[SANDBOX_PATH world_gs_fails; "/tmp/work"] ++
    command ImageConverter "/tmp/work" "/srv/jobs/photo.jpg";
    [SANDBOX_PATH world_gs_fails; "/tmp/work"] ++
    command PDFConverter "/tmp/work" "/tmp/work/out.pdf"]).
Proof.
  split_and!; [reflexivity|vm_compute; set_solver|vm_compute; reflexivity|].
  vm_compute. reflexivity.
Qed.

(** C5, amended.  When the detected type is not accepted, the resolver
    returns the pipeline [p] and the command of every stage of [p] exits
    with status zero when it is run, [auto_convert] runs one command per
    stage of [p] in order, the first on [input_file] and each later one on
    the file the stage before it returned; it returns the file of the last
    stage, whose class declares an output type that is a member of the
    accepted set. *)
Theorem auto_convert_runs_pipeline (w : World) (input_file : string)
    (out_types : out_types_arg) (work_dir input_type : string)
    (p : list Converter) (tr : list (list string)) :
  from_file w input_file = Some input_type →
  input_type ∉ out_types_set out_types →
  get_converter_chain (CONVERTERS w) input_type (out_types_set out_types) =
    Return p →
  (∀ i cmd, stage_commands w work_dir p input_file !! i = Some cmd →
     run_process w (tr ++ take i (stage_commands w work_dir p input_file)) cmd
       = Exited 0) →
  ∃ cn cmds,
    last p = Some cn ∧
    output_type cn ∈ out_types_set out_types ∧
    auto_convert w input_file out_types work_dir tr =
      (Return (out_file cn work_dir), tr ++ cmds) ∧
    length cmds = length p ∧
    ∀ i c, p !! i = Some c →
      ∃ f, cmds !! i =
             Some ([SANDBOX_PATH w; work_dir] ++ command c work_dir f) ∧
           (i = 0 → f = input_file) ∧
           (∀ j c', i = S j → p !! j = Some c' → f = out_file c' work_dir).
Proof.
  intros Hdet Hacc Hp Hok.
  pose proof (resolved_chain_valid _ _ _ _ Hp) as (_ & _ & Hlast).
  pose proof (get_converter_chain_sound _ _ _ _ Hp) as (u & Hu & Hout & _).
  destruct (last p) as [cn|] eqn:Hcn.
  2: { apply last_None in Hcn as ->. simpl in Hout. injection Hout as <-.
       done. }
  destruct (stage_commands_lookup w work_dir p input_file) as (Hlen & Hcmds).
  exists cn, (stage_commands w work_dir p input_file).
  split_and!; [done|by apply Hlast| |done|done].
  rewrite (auto_convert_resolve _ _ _ _ input_type) by done.
  rewrite Hp, run_pipeline_ok, Hcn by done. done.
Qed.

Lemma auto_convert_runs_pipeline_witness :
  ∃ cn cmds,
    last [ImageConverter] = Some cn ∧
    output_type cn ∈ out_types_set (OneType "application/pdf") ∧
    auto_convert world_gs_fails "/srv/jobs/photo.jpg"
      (OneType "application/pdf") "/tmp/work" [] =
      (Return (out_file cn "/tmp/work"), [] ++ cmds) ∧
    length cmds = length [ImageConverter] ∧
    ∀ i c, [ImageConverter] !! i = Some c →
      ∃ f, cmds !! i =
             Some ([SANDBOX_PATH world_gs_fails; "/tmp/work"] ++
                   command c "/tmp/work" f) ∧
           (i = 0 → f = "/srv/jobs/photo.jpg") ∧
           (∀ j c', i = S j → [ImageConverter] !! j = Some c' →
                    f = out_file c' "/tmp/work").
Proof.
  apply (auto_convert_runs_pipeline world_gs_fails "/srv/jobs/photo.jpg"
           (OneType "application/pdf") "/tmp/work" "image/jpeg").
  - reflexivity.
  - vm_compute. set_solver.
  - vm_compute. reflexivity.
  - intros [|i] cmd Hi; [|done]. by injection Hi as <-.
Defined.

(** C6.  When the resolver raises, [auto_convert] raises the same
    [NoConverterAvailableError] and no converter stage runs: the trace of
    commands is left as it was. *)
Theorem auto_convert_propagates_error (w : World) (input_file : string)
    (out_types : out_types_arg) (work_dir input_type : string) (e : exn)
    (tr : list (list string)) :
  from_file w input_file = Some input_type →
  input_type ∉ out_types_set out_types →
  get_converter_chain (CONVERTERS w) input_type (out_types_set out_types) =
    Raise e →
  e = NoConverterAvailableError input_type (out_types_set out_types) ∧
  auto_convert w input_file out_types work_dir tr = (Raise e, tr).
Proof.
  intros Hdet Hacc He. split.
  - destruct (get_converter_chain_total (CONVERTERS w) input_type
                (out_types_set out_types)) as [Hr|[p Hr]];
      rewrite Hr in He; [by injection He as <-|done].
  - rewrite (auto_convert_resolve _ _ _ _ input_type) by done.
    by rewrite He.
Qed.

Lemma auto_convert_propagates_error_witness :
  auto_convert demo_world "/srv/jobs/photo.jpg" (OneType "text/plain")
    "/tmp/work" [] =
  (Raise (NoConverterAvailableError "image/jpeg"
            (out_types_set (OneType "text/plain"))), []).
Proof.
  apply (auto_convert_propagates_error demo_world "/srv/jobs/photo.jpg"
           (OneType "text/plain") "/tmp/work" "image/jpeg").
  - reflexivity.
  - vm_compute. set_solver.
  - vm_compute. reflexivity.
Defined.

(** C10.  A single content-type string stands for the singleton set that
    holds it: [auto_convert] behaves the same on the string and on the
    one-element list, for every input file and working directory. *)
Theorem auto_convert_single_string (w : World) (input_file s work_dir : string)
    (tr : list (list string)) :
  out_types_set (OneType s) = {[s]} ∧
  auto_convert w input_file (OneType s) work_dir tr =
  auto_convert w input_file (TypeList [s]) work_dir tr.
Proof.
  split; [|reflexivity].
  unfold out_types_set. by rewrite list_to_set_singleton_L.
Qed.

(** ** The traversal order *)

(** [queue.pop()] takes the type appended last, so the traversal runs depth
    first.  On the registry of the module this never shows, every chain
    having two stages at most; on [SAMPLE_CONVERTERS] the three-stage route
    is returned although [[ConvAB; ConvBT]] reaches the accepted type in
    two. *)
Example sample_traversal_depth_first :
  get_converter_chain SAMPLE_CONVERTERS "a" {["t"]} =
    Return [ConvAC; ConvCD; ConvDT] ∧
  chain_output "a" [ConvAB; ConvBT] = Some "t".
Proof. split; vm_compute; reflexivity. Qed.

(** * Further properties of the resolver, over any registry *)

(** X1.  Whatever the registry, the input type and the accepted set,
    [get_converter_chain] ends: both [while] loops stop, [reverse[v]] never
    raises [KeyError], and the result is a pipeline or the
    [NoConverterAvailableError] built from the two arguments. *)
Theorem resolver_always_ends {C : Type} `{ConverterAttrs C}
    (registry : list C) (input_type : string) (output_types : gset string) :
  get_converter_chain registry input_type output_types =
    Raise (NoConverterAvailableError input_type output_types) ∨
  ∃ p, get_converter_chain registry input_type output_types = Return p.
Proof. apply get_converter_chain_total. Qed.

(** X2.  The traversal is complete: whenever some chain of one or more
    registered converters transforms [input_type] into an accepted type,
    [get_converter_chain] returns a pipeline instead of raising. *)
Theorem resolver_finds_a_chain {C : Type} `{ConverterAttrs C}
    (registry : list C) (input_type : string) (output_types : gset string)
    (q : list C) :
  q ≠ [] → transforms registry input_type output_types q →
  ∃ p, get_converter_chain registry input_type output_types = Return p.
Proof.
  intros Hq Htr.
  destruct (get_converter_chain_total registry input_type output_types)
    as [Hr|Hr]; [|done].
  pose proof (proj1 (get_converter_chain_raises_iff _ _ _) Hr) as Hno.
  by destruct (Hno q Hq).
Qed.

Lemma resolver_finds_a_chain_witness :
  ∃ p, get_converter_chain SAMPLE_CONVERTERS "a" {["t"]} = Return p.
Proof.
  apply (resolver_finds_a_chain SAMPLE_CONVERTERS "a" {["t"]}
           [ConvAB; ConvBT]).
  - done.
  - split; [repeat constructor; vm_compute; set_solver|].
    vm_compute. set_solver.
Defined.

(** X3.  After [bfs], at most one key of [reverse] is an accepted type, so
    the element [next(iter(intersect))] picks does not depend on the
    iteration order of the set. *)
Theorem intersect_has_one_element {C : Type} `{ConverterAttrs C}
    (registry : list C) (input_type : string) (output_types : gset string)
    (r : gmap string (string * C)) :
  bfs registry input_type output_types = Some r →
  ∀ u u', u ∈ output_types ∩ dom r → u' ∈ output_types ∩ dom r → u = u'.
Proof.
  intros Hb u u' Hu Hu'.
  destruct (bfs_spec registry input_type output_types)
    as (r' & Hb' & _ & Hcases).
  rewrite Hb in Hb'. injection Hb' as <-.
  destruct Hcases as [Hemp|[x Hx]].
  - rewrite Hemp in Hu. set_solver.
  - rewrite Hx in Hu, Hu'. set_solver.
Qed.

Lemma intersect_has_one_element_witness :
  ∃ r, bfs CONVERTERS_ALL "image/png"
         {["application/pdf"; "gutenberg/pdf"]} = Some r ∧
       ∀ u u',
         u ∈ ({["application/pdf"; "gutenberg/pdf"]} : gset string) ∩ dom r →
         u' ∈ ({["application/pdf"; "gutenberg/pdf"]} : gset string) ∩ dom r →
         u = u'.
Proof.
  eexists. split; [vm_compute; reflexivity|].
  apply (intersect_has_one_element CONVERTERS_ALL "image/png").
  vm_compute. reflexivity.
Defined.

Lemma bind_select_NoDup {C : Type} (c : C) (v : string) (l : list string) :
  NoDup l →
  (l ≫= λ mime, if decide (mime = v) then [c] else []) =
  if decide (v ∈ l) then [c] else [].
Proof.
  induction 1 as [|m l Hm _ IH]; [done|].
  rewrite bind_cons, IH. destruct (decide (m = v)) as [->|Hne].
  - rewrite decide_False by done. rewrite decide_True by by left. done.
  - simpl. case_decide as Hv.
    + rewrite decide_True by by right. done.
    + rewrite decide_False; [done|]. intros [?|?]%elem_of_cons; by subst.
Qed.

(** X4.  When no class lists a supported type twice, the index
    [converters_for_type] maps a type to exactly the registered converters
    that support it, in the order of the registry; a type no converter
    supports is mapped to the empty list. *)
Theorem converters_for_type_filter {C : Type} `{ConverterAttrs C}
    (registry : list C) (v : string) :
  Forall (λ c, NoDup (supported_types c)) registry →
  converters_for_type registry !!! v =
  filter (λ c, v ∈ supported_types c) registry.
Proof.
  intros Hnd. rewrite converters_for_type_lookup.
  induction Hnd as [|c registry Hc _ IH]; [done|].
  rewrite bind_cons, IH, filter_cons, bind_select_NoDup by done.
  by case_decide.
Qed.

Lemma converters_for_type_filter_witness :
  converters_for_type CONVERTERS_ALL !!! "application/rtf" =
  filter (λ c, "application/rtf" ∈ supported_types c) CONVERTERS_ALL.
Proof.
  apply (converters_for_type_filter CONVERTERS_ALL "application/rtf").
  repeat constructor; vm_compute; set_solver.
Defined.

(** X5.  When a registered converter takes [input_type] straight to an
    accepted type, the traversal stops on the first pass of its inner loop
    and the pipeline has at most one stage, whatever else the registry
    holds. *)
Theorem resolver_direct_conversion {C : Type} `{ConverterAttrs C}
    (registry : list C) (input_type : string) (output_types : gset string)
    (d : C) :
  d ∈ registry → input_type ∈ supported_types d →
  output_type d ∈ output_types →
  ∃ p, get_converter_chain registry input_type output_types = Return p ∧
       length p ≤ 1.
Proof. apply get_converter_chain_direct. Qed.

Lemma resolver_direct_conversion_witness :
  ∃ p, get_converter_chain SAMPLE_CONVERTERS "b" {["t"]} = Return p ∧
       length p ≤ 1.
Proof.
  apply (resolver_direct_conversion SAMPLE_CONVERTERS "b" {["t"]} ConvBT);
    vm_compute; set_solver.
Defined.

(** X6.  [get_converter_chain] returns the empty pipeline only when
    [input_type] is itself accepted and some chain of one or more registered
    converters leads from [input_type] back to it. *)
Theorem resolver_empty_pipeline {C : Type} `{ConverterAttrs C}
    (registry : list C) (input_type : string) (output_types : gset string) :
  get_converter_chain registry input_type output_types = Return [] →
  input_type ∈ output_types ∧
  ∃ q, q ≠ [] ∧ Forall (λ c, c ∈ registry) q ∧
       chain_output input_type q = Some input_type.
Proof.
  intros (u & Hu & Hout & _ & q & Hq & Hall & Hchain)%get_converter_chain_sound.
  simpl in Hout. injection Hout as <-. split; [done|]. by exists q.
Qed.

Lemma resolver_empty_pipeline_witness :
  "x" ∈ ({["x"]} : gset string) ∧
  ∃ q, q ≠ [] ∧ Forall (λ c, c ∈ LOOP_CONVERTERS) q ∧
       chain_output "x" q = Some "x".
Proof.
  apply (resolver_empty_pipeline LOOP_CONVERTERS "x" {["x"]}).
  vm_compute. reflexivity.
Defined.

Lemma resolver_monotone {C : Type} `{ConverterAttrs C}
    (registry registry' : list C) (input_type : string)
    (output_types output_types' : gset string) (p : list C) :
  (∀ c, c ∈ registry → c ∈ registry') →
  output_types ⊆ output_types' →
  get_converter_chain registry input_type output_types = Return p →
  ∃ p', get_converter_chain registry' input_type output_types' = Return p'.
Proof.
  intros Hreg Hacc
    (u & Hu & _ & _ & q & Hq & Hall & Hchain)%get_converter_chain_sound.
  destruct (get_converter_chain_total registry' input_type output_types')
    as [Hr|Hr]; [|done].
  pose proof (proj1 (get_converter_chain_raises_iff _ _ _) Hr) as Hno.
  destruct (Hno q Hq). split.
  - eapply Forall_impl; [exact Hall|]. intros c. apply Hreg.
  - rewrite Hchain. by apply Hacc.
Qed.

(** X7.  Accepting more output types never turns a conversion that resolves
    into one that raises: if a pipeline is returned for [output_types], one
    is returned for every larger accepted set. *)
Theorem resolver_accepts_more {C : Type} `{ConverterAttrs C}
    (registry : list C) (input_type : string)
    (output_types output_types' : gset string) (p : list C) :
  output_types ⊆ output_types' →
  get_converter_chain registry input_type output_types = Return p →
  ∃ p', get_converter_chain registry input_type output_types' = Return p'.
Proof. intros Hacc. by apply resolver_monotone. Qed.

Lemma resolver_accepts_more_witness :
  ∃ p', get_converter_chain CONVERTERS_ALL "image/png"
          {["gutenberg/pdf"; "application/pdf"]} = Return p'.
Proof.
  apply (resolver_accepts_more CONVERTERS_ALL "image/png" {["gutenberg/pdf"]}
           {["gutenberg/pdf"; "application/pdf"]}
           [ImageConverter; PDFConverter]).
  - set_solver.
  - vm_compute. reflexivity.
Defined.

(** * Further properties of the module's registry *)

(** X8.  Making more converters available never turns a conversion that
    resolves into one that raises: if every converter available on host [w]
    is available on host [w'], every pair of input type and accepted set
    that resolves on [w] resolves on [w']. *)
Theorem more_converters_resolve_more (w w' : World) (input_type : string)
    (output_types : gset string) (p : list Converter) :
  (∀ c, is_available w c = true → is_available w' c = true) →
  get_converter_chain (CONVERTERS w) input_type output_types = Return p →
  ∃ p', get_converter_chain (CONVERTERS w') input_type output_types =
          Return p'.
Proof.
  intros Hav. apply resolver_monotone; [|done].
  intros c. rewrite !elem_of_CONVERTERS. apply Hav.
Qed.

Lemma more_converters_resolve_more_witness :
  ∃ p', get_converter_chain (CONVERTERS demo_world) "application/rtf"
          {["gutenberg/pdf"]} = Return p'.
Proof.
  apply (more_converters_resolve_more world_without_convert demo_world
           "application/rtf" {["gutenberg/pdf"]} [DocConverter; PDFConverter]).
  - intros c _. by destruct c.
  - vm_compute. reflexivity.
Defined.

Lemma elem_of_SUPPORTED_FILE_FORMATS (w : World) (t : string) :
  t ∈ SUPPORTED_FILE_FORMATS w ↔
  ∃ c, is_available w c = true ∧ t ∈ supported_types c.
Proof.
  unfold SUPPORTED_FILE_FORMATS. rewrite list_elem_of_In, in_concat. split.
  - intros (l & Hl & Ht). apply list_elem_of_In in Hl, Ht.
    apply list_elem_of_fmap in Hl as (c & -> & Hc).
    exists c. split; [by apply elem_of_CONVERTERS|done].
  - intros (c & Hc & Ht). exists (supported_types c).
    rewrite <- !list_elem_of_In. split; [|done].
    apply list_elem_of_fmap. exists c. split; [done|].
    by apply elem_of_CONVERTERS.
Qed.

(** X10.  A content type that is not in [SUPPORTED_FILE_FORMATS] cannot be
    converted: for every accepted set the resolver raises
    [NoConverterAvailableError]. *)
Theorem unsupported_format_raises (w : World) (input_type : string)
    (output_types : gset string) :
  input_type ∉ SUPPORTED_FILE_FORMATS w →
  get_converter_chain (CONVERTERS w) input_type output_types =
    Raise (NoConverterAvailableError input_type output_types).
Proof.
  intros Hno. apply get_converter_chain_raises_iff.
  intros [|c q] Hq [Hall Hout]; [done|].
  apply Forall_cons in Hall as [Hc _]. simpl in Hout.
  case_decide as Hsup; [|done]. apply Hno.
  apply elem_of_SUPPORTED_FILE_FORMATS. exists c.
  split; [by apply elem_of_CONVERTERS|done].
Qed.

Lemma unsupported_format_raises_witness :
  get_converter_chain (CONVERTERS demo_world) "gutenberg/pdf"
    {["application/pdf"]} =
  Raise (NoConverterAvailableError "gutenberg/pdf" {["application/pdf"]}).
Proof.
  apply (unsupported_format_raises demo_world).
  vm_compute. set_solver.
Defined.

(** X11.  Every content type in [SUPPORTED_FILE_FORMATS] resolves to a
    pipeline of exactly one stage, a converter that supports it, when both
    ["application/pdf"] and ["gutenberg/pdf"] are accepted. *)
Theorem supported_format_resolves (w : World) (input_type : string)
    (output_types : gset string) :
  input_type ∈ SUPPORTED_FILE_FORMATS w →
  "application/pdf" ∈ output_types → "gutenberg/pdf" ∈ output_types →
  ∃ c, get_converter_chain (CONVERTERS w) input_type output_types =
         Return [c] ∧
       input_type ∈ supported_types c ∧ is_available w c = true.
Proof.
  intros (d & Hd & Hsup)%elem_of_SUPPORTED_FILE_FORMATS Hpdf Hgpdf.
  destruct (get_converter_chain_direct (CONVERTERS w) input_type output_types
              d) as (p & Hp & Hlen);
    [by apply elem_of_CONVERTERS|done|by destruct d|].
  assert (p ≠ []) as Hne.
  { intros ->. by apply (resolved_chain_nonempty _ _ _ Hp). }
  destruct p as [|c [|c' p]]; [done| |simpl in Hlen; lia].
  exists c. split; [done|].
  apply get_converter_chain_sound in Hp as (u & _ & Hout & Hall & _).
  apply Forall_cons in Hall as [Hc _]. simpl in Hout.
  case_decide; [|done]. split; [done|by apply elem_of_CONVERTERS].
Qed.

Lemma supported_format_resolves_witness :
  ∃ c, get_converter_chain (CONVERTERS demo_world) "application/msword"
         {["application/pdf"; "gutenberg/pdf"]} = Return [c] ∧
       "application/msword" ∈ supported_types c ∧
       is_available demo_world c = true.
Proof.
  apply (supported_format_resolves demo_world); vm_compute; set_solver.
Defined.

Lemma resolved_chain_shape (registry : list Converter) (input_type : string)
    (output_types : gset string) (p : list Converter) :
  get_converter_chain registry input_type output_types = Return p →
  ∃ c, input_type ∈ supported_types c ∧
       (p = [c] ∨ (p = [c; PDFConverter] ∧ c ≠ PDFConverter)).
Proof.
  intros Hp.
  assert (p ≠ []) as Hne.
  { intros ->. by apply (resolved_chain_nonempty _ _ _ Hp). }
  apply get_converter_chain_sound in Hp as (u & _ & Hout & _).
  pose proof (chain_length_le_2 _ _ _ Hout) as Hlen.
  destruct p as [|c1 [|c2 [|c3 p]]]; [done| | |simpl in Hlen; lia];
    simpl in Hout; repeat case_decide; try done; exists c1.
  - split; [done|by left].
  - split; [done|]. right. destruct c1, c2; set_solver.
Qed.

(** X12.  On the module's classes every resolved pipeline has one stage or
    two; its first stage supports [input_type], and a second stage is always
    [PDFConverter], placed after [ImageConverter] or [DocConverter]. *)
Theorem resolved_pipeline_shape (w : World) (input_type : string)
    (output_types : gset string) (p : list Converter) :
  get_converter_chain (CONVERTERS w) input_type output_types = Return p →
  ∃ c, input_type ∈ supported_types c ∧
       (p = [c] ∨ (p = [c; PDFConverter] ∧ c ≠ PDFConverter)).
Proof. apply resolved_chain_shape. Qed.

Lemma resolved_pipeline_shape_witness :
  ∃ c, "image/png" ∈ supported_types c ∧
       ([ImageConverter; PDFConverter] = [c] ∨
        ([ImageConverter; PDFConverter] = [c; PDFConverter] ∧
         c ≠ PDFConverter)).
Proof.
  apply (resolved_pipeline_shape demo_world "image/png" {["gutenberg/pdf"]}).
  vm_compute. reflexivity.
Defined.

(** * Further properties of the orchestrator *)

(** X13.  The [for] loop of [auto_convert] stops at the first stage whose
    command does not exit with status zero: the stages before it have run
    in order, the failing command is the last one handed over, and the loop
    raises [CalledProcessError] with the status and the command on a
    non-zero status, raises [OSError] when the command cannot be started,
    and does not return when the command never exits. *)
Theorem run_pipeline_stops_at_failure (w : World) (work_dir : string)
    (p : list Converter) (file : string) (tr : list (list string))
    (k : nat) (cmd : list string) :
  stage_commands w work_dir p file !! k = Some cmd →
  (∀ i cmd', i < k → stage_commands w work_dir p file !! i = Some cmd' →
             run_process w (tr ++ take i (stage_commands w work_dir p file))
               cmd' = Exited 0) →
  run_process w (tr ++ take k (stage_commands w work_dir p file)) cmd
    ≠ Exited 0 →
  run_pipeline w work_dir p file tr =
    (match run_process w (tr ++ take k (stage_commands w work_dir p file))
             cmd with
     | Exited returncode => Raise (CalledProcessError returncode cmd)
     | NotStarted => Raise (OSError cmd)
     | NeverExits => Hangs
     end,
     tr ++ take (S k) (stage_commands w work_dir p file)).
Proof. apply run_pipeline_first_failure. Qed.

Lemma run_pipeline_stops_at_failure_witness :
  run_pipeline world_gs_fails "/tmp/work" [ImageConverter; PDFConverter]
    "/srv/jobs/photo.jpg" [] =
  (Raise (CalledProcessError 1
            ([SANDBOX_PATH world_gs_fails; "/tmp/work"] ++
             command PDFConverter "/tmp/work" "/tmp/work/out.pdf")),
   [] ++ take 2 (stage_commands world_gs_fails "/tmp/work"
                   [ImageConverter; PDFConverter] "/srv/jobs/photo.jpg")).
Proof.
  rewrite (run_pipeline_stops_at_failure world_gs_fails "/tmp/work"
             [ImageConverter; PDFConverter] "/srv/jobs/photo.jpg" [] 1
             ([SANDBOX_PATH world_gs_fails; "/tmp/work"] ++
              command PDFConverter "/tmp/work" "/tmp/work/out.pdf")).
  - reflexivity.
  - reflexivity.
  - intros [|i] cmd' Hi Hcmd; [|lia]. by injection Hcmd as <-.
  - vm_compute. discriminate.
Defined.

Lemma stage_commands_sandboxed (w : World) (work_dir : string)
    (p : list Converter) (file : string) :
  Forall (λ cmd, ∃ c f, c ∈ p ∧
                        cmd = [SANDBOX_PATH w; work_dir] ++ command c work_dir f)
         (stage_commands w work_dir p file).
Proof.
  revert file. induction p as [|c p IH]; intros file; simpl; constructor.
  - exists c, file. split; [by left|done].
  - eapply Forall_impl; [apply IH|]. intros cmd (c' & f & Hc' & ->).
    exists c', f. split; [by right|done].
Qed.

(** X14.  Whatever the outcome of the call, [auto_convert] hands at most
    two commands to [subprocess.check_call], and each of them is the sandbox
    script applied to [work_dir] and followed by the command of an available
    converter. *)
Theorem auto_convert_commands (w : World) (input_file : string)
    (out_types : out_types_arg) (work_dir : string)
    (tr : list (list string)) :
  ∃ cmds,
    (auto_convert w input_file out_types work_dir tr).2 = tr ++ cmds ∧
    length cmds ≤ 2 ∧
    Forall (λ cmd, ∃ c f, is_available w c = true ∧
              cmd = [SANDBOX_PATH w; work_dir] ++ command c work_dir f) cmds.
Proof.
  destruct (from_file w input_file) as [input_type|] eqn:Hdet.
  2: { exists []. unfold auto_convert, magic_from_file, lift, mbind, M_bind.
       rewrite Hdet. simpl. split_and!; [by rewrite app_nil_r|lia|done]. }
  destruct (decide (input_type ∈ out_types_set out_types)) as [Hacc|Hacc].
  { exists []. rewrite (auto_convert_short_circuit _ _ _ _ input_type) by done.
    simpl. split_and!; [by rewrite app_nil_r|lia|done]. }
  rewrite (auto_convert_resolve _ _ _ _ input_type) by done.
  destruct (get_converter_chain_total (CONVERTERS w) input_type
              (out_types_set out_types)) as [Hr|[p Hr]]; rewrite Hr.
  { exists []. simpl. split_and!; [by rewrite app_nil_r|lia|done]. }
  apply get_converter_chain_sound in Hr as (u & _ & Hout & Hall & _).
  apply chain_length_le_2 in Hout.
  destruct (run_pipeline_prefix w work_dir p input_file tr) as (n & Htr).
  exists (take n (stage_commands w work_dir p input_file)).
  split_and!; [done| |].
  - rewrite length_take.
    destruct (stage_commands_lookup w work_dir p input_file) as [Hlen _].
    lia.
  - apply Forall_take.
    eapply Forall_impl; [apply stage_commands_sandboxed|].
    intros cmd (c & f & Hc & ->). exists c, f. split; [|done].
    rewrite Forall_forall in Hall. by apply elem_of_CONVERTERS, Hall.
Qed.

Lemma prefix_append (a b : string) : String.prefix a (a +:+ b) = true.
Proof.
  induction a as [|x a IH]; simpl; [by destruct b|].
  destruct (Ascii.ascii_dec x x); [done|congruence].
Qed.

Lemma append_inj_r (a b b' : string) : a +:+ b = a +:+ b' → b = b'.
Proof. apply String.app_inj. Qed.

Lemma append_assoc (a b c : string) : (a +:+ b) +:+ c = a +:+ (b +:+ c).
Proof.
  induction a as [|x a IH]; [done|].
  change (String x ((a +:+ b) +:+ c) = String x (a +:+ b +:+ c)).
  by rewrite IH.
Qed.

(** A relative file name is appended to the directory, after a separator
    when the directory is not empty and does not end with one. *)
Lemma os_path_join_relative (a b : string) :
  String.prefix "/" b = false →
  os_path_join a b =
  (if bool_decide (a = "") || ends_with_sep a then a else a +:+ "/") +:+ b.
Proof.
  intros Hb. unfold os_path_join. rewrite Hb.
  destruct (bool_decide (a = "") || ends_with_sep a); [done|].
  by rewrite append_assoc.
Qed.

Lemma out_file_relative (c : Converter) (work_dir : string) :
  out_file c work_dir =
  (if bool_decide (work_dir = "") || ends_with_sep work_dir then work_dir
   else work_dir +:+ "/") +:+
  match c with PDFConverter => "final.pdf" | _ => "out.pdf" end.
Proof. destruct c; by apply os_path_join_relative. Qed.

(** X15.  The file a converter returns lies under the working directory it
    was constructed with: its path starts with [work_dir]. *)
Theorem out_file_in_work_dir (c : Converter) (work_dir : string) :
  String.prefix work_dir (out_file c work_dir) = true.
Proof.
  rewrite out_file_relative.
  destruct (bool_decide (work_dir = "") || ends_with_sep work_dir).
  - apply prefix_append.
  - rewrite append_assoc. apply prefix_append.
Qed.

(** X16.  In a resolved pipeline a stage never writes the file it is handed
    by the stage before it: consecutive stages return different paths, for
    every working directory. *)
Theorem consecutive_stages_distinct_files (w : World) (input_type : string)
    (output_types : gset string) (p : list Converter) (work_dir : string) :
  get_converter_chain (CONVERTERS w) input_type output_types = Return p →
  ∀ i ci cj, p !! i = Some ci → p !! S i = Some cj →
    out_file ci work_dir ≠ out_file cj work_dir.
Proof.
  intros (c & _ & [->|[-> Hc]])%resolved_chain_shape i ci cj Hi Hj.
  { destruct i; simpl in Hj; done. }
  destruct i as [|[|i]]; simpl in Hi, Hj; [|done..].
  injection Hi as <-. injection Hj as <-.
  rewrite !out_file_relative. intros Heq%append_inj_r. by destruct c.
Qed.

Lemma consecutive_stages_distinct_files_witness :
  out_file ImageConverter "/tmp/work" ≠ out_file PDFConverter "/tmp/work".
Proof.
  apply (consecutive_stages_distinct_files demo_world "image/png"
           {["gutenberg/pdf"]} [ImageConverter; PDFConverter] "/tmp/work")
    with (i := 0); [vm_compute; reflexivity|reflexivity..].
Defined.
